(** * Disk-Method: the solid-of-revolution calculator of [disk_method.py]

    A shallow embedding of the three functions of the script
    ([volume_disk_method], [get_plot_data] and the Dash callback
    [update_output]) together with the part of NumPy, SymPy, SciPy and
    Plotly they touch.

    Conventions.
    - Python floats are read as real numbers ([R]); [np.pi] is [PI].
      Rounding is not described.  Overflow is, where Python raises for it
      (the power of a number); where NumPy or a float product goes on with
      [inf] the value is read as the real number, so nothing is said of
      [inf] and [nan].  Identities of exact trigonometry that rounding
      breaks ([sin (2 pi) = 0], [sin^2 + cos^2 = 1]) are not stated of the
      program.
    - A Python call either returns a value or raises; it may also emit
      warnings on the way.  This is the monad [py] below.
    - [sympy.sympify] and the [:.4f] float formatter are section variables.
      So is the integrator in the script itself; [scipy_quad] below is
      [scipy.integrate.quad] as far as it is written in Python around its
      QUADPACK routine, which stays a parameter.  Every property of a
      library that a proof relies on is a named assumption
      ([qags_integrates], [quad_total], ...). *)

From Stdlib Require Import Reals Lra Lia List String Ascii ZArith Bool.
From Stdlib Require Import FunctionalExtensionality DecimalString.
From Stdlib Require Import ClassicalEpsilon.
Import ListNotations.
Local Open Scope string_scope.
Local Open Scope list_scope.
Local Open Scope R_scope.

(** ** Outcomes of a Python call *)

(** The exceptions of Python that occur.  [Unmodelled] is not one of them:
    it marks a run that goes on with an array of SymPy objects, which the
    arrays and figures below do not describe; nothing is stated about what
    the program does from there. *)
Inductive exn : Type :=
| SympifyError
| ValueError
| TypeError
| IndexError
| ZeroDivisionError
| OverflowError
| Unmodelled.

Inductive warning : Type :=
| IntegrationWarning.

(** Warnings emitted so far, and then either the exception that escaped or
    the value returned. *)
Definition py (A : Type) : Type := (list warning * (exn + A))%type.

Definition ret {A : Type} (v : A) : py A := ([], inr v).
Definition raise {A : Type} (e : exn) : py A := ([], inl e).
Definition warn (w : warning) : py unit := ([w], inr tt).

Definition bind {A B : Type} (m : py A) (k : A -> py B) : py B :=
  match m with
  | (ws, inl e) => (ws, inl e)
  | (ws, inr v) => let (ws', r) := k v in (ws ++ ws', r)
  end.

Notation "x <- m ;; k" := (bind m (fun x => k))
  (at level 61, m at next level, right associativity).
Notation "' pat <- m ;; k" := (bind m (fun x => match x with pat => k end))
  (at level 61, pat pattern, m at next level, right associativity).

(** [for i in range(n)] with a body that may raise: the results in order. *)
Fixpoint for_each {A B : Type} (body : A -> py B) (xs : list A) : py (list B) :=
  match xs with
  | [] => ret []
  | x :: xs' => y <- body x;; ys <- for_each body xs';; ret (y :: ys)
  end.


Definition raises {A : Type} (m : py A) : Prop :=
  exists ws e, m = (ws, inl e).

(** ** NumPy on reals *)

Module np.

(** What the script passes around: a Python number, a one-dimensional
    array of floats, or a SymPy expression that still holds a symbol. *)
Inductive ndarray : Type :=
| Scalar (r : R)
| Vec (l : list R)
| Symbolic.

(** Two-dimensional arrays, row by row. *)
Definition matrix : Type := list (list R).

Definition pi : R := PI.

(** [np.linspace(start, stop, num)]: [num] samples, [start + i * step] with
    [step = (stop - start) / (num - 1)], the last one set to [stop]. *)
Definition linspace (start stop : R) (num : nat) : list R :=
  let div := (num - 1)%nat in
  let step := (stop - start) / INR div in
  let y := map (fun i => INR i * step + start) (seq 0 num) in
  if (1 <? num)%nat then removelast y ++ [stop] else y.

(** A function applied to a number, to every entry of an array, or under
    which a SymPy expression stays one. *)
Definition map1 (f : R -> R) (v : ndarray) : ndarray :=
  match v with
  | Scalar r => Scalar (f r)
  | Vec l => Vec (map f l)
  | Symbolic => Symbolic
  end.

Definition cos (v : ndarray) : ndarray := map1 Rtrigo_def.cos v.
Definition sin (v : ndarray) : ndarray := map1 Rtrigo_def.sin v.
(** [- v] *)
Definition negative (v : ndarray) : ndarray := map1 Ropp v.
(** [c * v] and [v * c] for a float [c]: broadcasting a scalar never
    fails.  A SymPy expression stays one under a factor that is not zero,
    as [np.pi] and the cosines of the script are. *)
Definition scale (c : R) (v : ndarray) : ndarray := map1 (Rmult c) v.
Definition scale_r (v : ndarray) (c : R) : ndarray := map1 (fun r => r * c) v.

(** [np.zeros_like(v)]: zeros in the shape of [v], zero-dimensional for
    anything that is not an array. *)
Definition zeros_like (v : ndarray) : ndarray :=
  match v with
  | Vec l => Vec (map (fun _ => 0) l)
  | _ => Scalar 0
  end.

(** Binary operators on numbers and arrays broadcast: equal lengths go
    pointwise, a scalar or a one-element array is stretched, anything else
    is a [ValueError]. *)
Fixpoint zip_with (op : R -> R -> R) (l1 l2 : list R) : list R :=
  match l1, l2 with
  | a :: l1', b :: l2' => op a b :: zip_with op l1' l2'
  | _, _ => []
  end.

Definition broadcast (op : R -> R -> R) (u v : ndarray) : py ndarray :=
  match u, v with
  | Scalar a, Scalar b => ret (Scalar (op a b))
  | Scalar a, Vec l => ret (Vec (map (op a) l))
  | Vec l, Scalar b => ret (Vec (map (fun a => op a b) l))
  | Vec l1, Vec l2 =>
      if (List.length l1 =? List.length l2)%nat then
        ret (Vec (zip_with op l1 l2))
      else if (List.length l1 =? 1)%nat then ret (Vec (map (op (hd 0 l1)) l2))
      else if (List.length l2 =? 1)%nat then
        ret (Vec (map (fun a => op a (hd 0 l2)) l1))
      else raise ValueError
  | _, _ => raise Unmodelled
  end.

(** [np.outer] flattens both arguments first; the product of the two
    lists is the matrix of all products. *)
Definition ravel (v : ndarray) : option (list R) :=
  match v with
  | Scalar r => Some [r]
  | Vec l => Some l
  | Symbolic => None
  end.

Definition outer_product (u v : list R) : matrix :=
  map (fun a => map (fun b => a * b) v) u.

Definition outer (u v : ndarray) : py matrix :=
  match ravel u, ravel v with
  | Some lu, Some lv => ret (outer_product lu lv)
  | _, _ => raise Unmodelled
  end.

(** [np.repeat(X[:, np.newaxis], n, axis=1)]: row [i] is [X[i]], [n] times. *)
Definition repeat_newaxis (X : list R) (n : nat) : matrix :=
  map (fun x => repeat x n) X.

(** [m[:, 0]] on a matrix whose rows are not empty. *)
Definition column0 (m : matrix) : list R := map (fun row => hd 0 row) m.

(** [v[::-1]]: a float cannot be sliced, nor can a SymPy expression. *)
Definition reversed (v : ndarray) : py ndarray :=
  match v with
  | Scalar _ => raise IndexError
  | Vec l => ret (Vec (rev l))
  | Symbolic => raise TypeError
  end.

(** [np.concatenate([u, v])]: zero-dimensional arrays are refused. *)
Definition concatenate (u v : ndarray) : py ndarray :=
  match u, v with
  | Vec l1, Vec l2 => ret (Vec (l1 ++ l2))
  | _, _ => raise ValueError
  end.

End np.

Import np (ndarray, Scalar, Vec, Symbolic, matrix).

(** ** The arithmetic operators of Python, as generated code applies them *)

Module operator.

(** The largest float is [2^1024 - 2^971]; a result of magnitude
    [2^1024 - 2^970] or more does not round to a float. *)
Definition overflow_threshold : R := 2 ^ 1024 - 2 ^ 970.

(** [u + v].  A number added to a SymPy expression gives a SymPy
    expression that holds the same symbols.  Two SymPy expressions may
    cancel, and an array takes the expression into an array of objects:
    neither is described. *)
Definition add (u v : ndarray) : py ndarray :=
  match u, v with
  | Symbolic, Scalar _ | Scalar _, Symbolic => ret Symbolic
  | Symbolic, _ | _, Symbolic => raise Unmodelled
  | _, _ => np.broadcast Rplus u v
  end.

(** [u * v].  A factor zero may cancel the symbols of the other factor:
    not described. *)
Definition mul (u v : ndarray) : py ndarray :=
  match u, v with
  | Symbolic, Scalar c | Scalar c, Symbolic =>
      if Req_dec_T c 0 then raise Unmodelled else ret Symbolic
  | Symbolic, Symbolic => ret Symbolic
  | Symbolic, Vec _ | Vec _, Symbolic => raise Unmodelled
  | _, _ => np.broadcast Rmult u v
  end.

(** [v ** n] for an integer literal [n].  On a Python number a result out
    of the range of floats raises [OverflowError] (for a float at the
    power, for an integer when the result is next multiplied by a float).
    On an array NumPy goes on, entry by entry. *)
Definition pow (v : ndarray) (n : nat) : py ndarray :=
  match v with
  | Scalar r =>
      if Rlt_dec (Rabs (r ^ n)) overflow_threshold then ret (Scalar (r ^ n))
      else raise OverflowError
  | Vec l => ret (Vec (map (fun r => r ^ n) l))
  | Symbolic =>
      match n with
      | O => ret (Scalar 1)
      | S _ => ret Symbolic
      end
  end.

End operator.

(** A Python callable of one argument, as [lambdify] produces them. *)
Definition callable : Type := ndarray -> py ndarray.

(** The integrands [quad] is given: called on a float. *)
Definition integrand : Type := R -> py ndarray.

(** ** The fragment of SymPy expressions the development needs *)

Module sp.

(** Integer literals stay within the range of floats. *)
Inductive expr : Type :=
| Symbol (name : string)
| Integer (n : Z)
| Add (e1 e2 : expr)
| Mul (e1 e2 : expr)
| Pow (e : expr) (n : nat).

Definition symbols (name : string) : expr := Symbol name.

Fixpoint free_symbols (e : expr) : list string :=
  match e with
  | Symbol name => [name]
  | Integer _ => []
  | Add e1 e2 | Mul e1 e2 => free_symbols e1 ++ free_symbols e2
  | Pow e1 _ => free_symbols e1
  end.

(** The body of the function [lambdify] generates, run on the argument
    [v] bound to the name [arg].  The expression is printed as Python
    source and evaluated left to right.  Every symbol of the expression is
    a name of the generated function: the argument stands for [v], any
    other symbol for the SymPy symbol itself, so that the result is a
    SymPy expression and no name is missing. *)
Fixpoint run (arg : string) (e : expr) (v : ndarray) : py ndarray :=
  match e with
  | Symbol name => if String.eqb name arg then ret v else ret Symbolic
  | Integer n => ret (Scalar (IZR n))
  | Add e1 e2 =>
      v1 <- run arg e1 v;; v2 <- run arg e2 v;; operator.add v1 v2
  | Mul e1 e2 =>
      v1 <- run arg e1 v;; v2 <- run arg e2 v;; operator.mul v1 v2
  | Pow e1 n => v1 <- run arg e1 v;; operator.pow v1 n
  end.

(** [sp.lambdify(x, e, 'numpy')].  Generating the function never looks at
    which symbols [e] mentions. *)
Definition lambdify (x : expr) (e : expr) : callable :=
  match x with
  | Symbol arg => run arg e
  | _ => fun _ => raise TypeError
  end.

End sp.

(** ** Plotly figures, as the data the script puts into them *)

Module go.

Inductive colorscale : Type :=
| NamedScale (name : string)
| Stops (stops : list (R * string)).

Record scatter : Type := {
  scatter_x : list R;
  scatter_y : list R;
  scatter_mode : option string;
  scatter_name : option string;
  scatter_line_color : option string;
  scatter_fill : option string;
  scatter_fillcolor : option string
}.

Record surface : Type := {
  surface_x : matrix;
  surface_y : matrix;
  surface_z : matrix;
  surface_colorscale : colorscale;
  surface_opacity : R
}.

Inductive trace : Type :=
| ScatterTrace (s : scatter)
| SurfaceTrace (s : surface).

(** [go.Scatter(x=..., y=..., ...)]: the [x] and [y] properties are data
    arrays, and Plotly's validator refuses a bare number. *)
Definition Scatter (x y : ndarray)
    (mode name line_color fill fillcolor : option string) : py trace :=
  match x, y with
  | Vec xs, Vec ys =>
      ret (ScatterTrace
             {| scatter_x := xs; scatter_y := ys; scatter_mode := mode;
                scatter_name := name; scatter_line_color := line_color;
                scatter_fill := fill; scatter_fillcolor := fillcolor |})
  | _, _ => raise ValueError
  end.

Definition Surface (x y z : matrix) (cs : colorscale) (opacity : R) : trace :=
  SurfaceTrace
    {| surface_x := x; surface_y := y; surface_z := z;
       surface_colorscale := cs; surface_opacity := opacity |}.

Record frame : Type := { frame_data : list trace }.

Definition Frame (data : list trace) : frame := {| frame_data := data |}.

(** One entry of [updatemenus[...]['buttons']]; [args] is
    [[None, {'frame': {...}, 'mode': ..., 'transition': {...}}]]. *)
Record button : Type := {
  button_frame_duration : Z;
  button_frame_redraw : bool;
  button_mode : string;
  button_transition_duration : option Z;
  button_label : string;
  button_method : string
}.

Record updatemenu : Type := {
  menu_buttons : list button;
  menu_direction : string;
  menu_pad_r : Z;
  menu_pad_t : Z;
  menu_showactive : bool;
  menu_type : string;
  menu_x : R;
  menu_xanchor : string;
  menu_y : R;
  menu_yanchor : string
}.

Record scene : Type := {
  scene_xaxis_title : string;
  scene_yaxis_title : string;
  scene_zaxis_title : string
}.

Record layout : Type := {
  layout_title : option string;
  layout_xaxis_title : option string;
  layout_yaxis_title : option string;
  layout_showlegend : option bool;
  layout_scene : option scene;
  layout_updatemenus : list updatemenu
}.

Record figure : Type := {
  data : list trace;
  figure_layout : layout;
  frames : list frame
}.

Definition empty_layout : layout :=
  {| layout_title := None; layout_xaxis_title := None;
     layout_yaxis_title := None; layout_showlegend := None;
     layout_scene := None; layout_updatemenus := [] |}.

(** [go.Figure(data=traces)]; [go.Figure()] is [Figure []]. *)
Definition Figure (traces : list trace) : figure :=
  {| data := traces; figure_layout := empty_layout; frames := [] |}.

Definition add_trace (fig : figure) (t : trace) : figure :=
  {| data := data fig ++ [t]; figure_layout := figure_layout fig;
     frames := frames fig |}.

Definition set_frames (fig : figure) (fs : list frame) : figure :=
  {| data := data fig; figure_layout := figure_layout fig; frames := fs |}.

Definition with_layout (fig : figure) (change : layout -> layout) : figure :=
  {| data := data fig; figure_layout := change (figure_layout fig);
     frames := frames fig |}.

(** [fig.update_layout(title=..., xaxis_title=..., yaxis_title=...,
    showlegend=...)] *)
Definition update_layout_titles (fig : figure)
    (title xaxis_title yaxis_title : string) (showlegend : bool) : figure :=
  with_layout fig (fun l =>
    {| layout_title := Some title; layout_xaxis_title := Some xaxis_title;
       layout_yaxis_title := Some yaxis_title;
       layout_showlegend := Some showlegend;
       layout_scene := layout_scene l;
       layout_updatemenus := layout_updatemenus l |}).

(** [fig.update_layout(title=..., scene=dict(...))] *)
Definition update_layout_scene (fig : figure) (title : string) (s : scene)
    : figure :=
  with_layout fig (fun l =>
    {| layout_title := Some title;
       layout_xaxis_title := layout_xaxis_title l;
       layout_yaxis_title := layout_yaxis_title l;
       layout_showlegend := layout_showlegend l;
       layout_scene := Some s;
       layout_updatemenus := layout_updatemenus l |}).

(** [fig.update_layout(updatemenus=[...])] *)
Definition update_layout_menus (fig : figure) (menus : list updatemenu)
    : figure :=
  with_layout fig (fun l =>
    {| layout_title := layout_title l;
       layout_xaxis_title := layout_xaxis_title l;
       layout_yaxis_title := layout_yaxis_title l;
       layout_showlegend := layout_showlegend l;
       layout_scene := layout_scene l;
       layout_updatemenus := menus |}).

End go.

(** ** The script *)

Section DiskMethod.

(** [scipy.integrate.quad(func, a, b)]: returns [(value, abserr)], or
    raises; a run that did not converge emits an [IntegrationWarning] and
    still returns its estimate. *)
Variable quad : integrand -> R -> R -> py (R * R).

(** [sympy.sympify(text)]: the parsed expression, or a [SympifyError]. *)
Variable sympify : string -> py sp.expr.

(** [format(volume, '.4f')] *)
Variable format_4f : R -> string.

(** [lambda x: np.pi * (func(x)**2)], line 9. *)
Definition disk_integrand (func : callable) : integrand :=
  fun x =>
    y <- func (Scalar x);;
    square <- operator.pow y 2;;
    ret (np.scale np.pi square).

Definition volume_disk_method (func : callable) (a b : R) : py R :=
  '(volume, _) <- quad (disk_integrand func) a b;;
  ret volume.

Definition get_plot_data (func : callable) (a b : R)
    : py (list R * ndarray * matrix * matrix * matrix) :=
  let x_vals := np.linspace a b 100 in
  y_vals <- func (Vec x_vals);;
  let theta := np.linspace 0 (2 * np.pi) 100 in
  let X := np.linspace a b 100 in
  fX <- func (Vec X);;
  Y <- np.outer fX (np.cos (Vec theta));;
  fX' <- func (Vec X);;
  Z <- np.outer fX' (np.sin (Vec theta));;
  let x_surface := np.repeat_newaxis X (List.length theta) in
  ret (x_vals, y_vals, x_surface, Y, Z).

Definition play_button : go.button :=
  {| go.button_frame_duration := 100; go.button_frame_redraw := true;
     go.button_mode := "immediate";
     go.button_transition_duration := Some 0%Z;
     go.button_label := "Play"; go.button_method := "animate" |}.

Definition pause_button : go.button :=
  {| go.button_frame_duration := 0; go.button_frame_redraw := true;
     go.button_mode := "immediate";
     go.button_transition_duration := None;
     go.button_label := "Pause"; go.button_method := "animate" |}.

Definition menu (buttons : list go.button) : go.updatemenu :=
  {| go.menu_buttons := buttons; go.menu_direction := "down";
     go.menu_pad_r := 10; go.menu_pad_t := 10;
     go.menu_showactive := true; go.menu_type := "buttons";
     go.menu_x := 1 / 10; go.menu_xanchor := "left";
     go.menu_y := 11 / 10; go.menu_yanchor := "top" |}.

Definition num_frames : nat := 50.

(** [f'rgba(0, {int(255 * i / num_frames)}, 255, 0.5)'] *)
Definition frame_fillcolor (i : nat) : string :=
  ("rgba(0, "
     ++ NilZero.string_of_uint (Nat.to_uint (255 * i / num_frames))
     ++ ", 255, 0.5)")%string.

(** Lines 71-81: one frame of the rotating surface. *)
Definition surface_frame (func_numeric : callable) (x_surface : matrix)
    (i : nat) : py go.frame :=
  let current_theta :=
    np.linspace 0 (INR i / INR (num_frames - 1) * 2 * np.pi) 100 in
  fx <- func_numeric (Vec (np.column0 x_surface));;
  frame_y <- np.outer fx (np.cos (Vec current_theta));;
  fx' <- func_numeric (Vec (np.column0 x_surface));;
  frame_z <- np.outer fx' (np.sin (Vec current_theta));;
  let color_scale :=
    go.Stops [(0, "green"%string); (1, "rgba(255, 2, 0, 0.5)"%string)] in
  ret (go.Frame
         [go.Surface x_surface frame_y frame_z color_scale (7 / 10)]).

(** Lines 133-150: one frame of the two-dimensional animation. *)
Definition section_frame (func_numeric : callable) (x_vals : list R)
    (i : nat) : py go.frame :=
  let rotation_angle := INR i / INR (num_frames - 1) * 2 * np.pi in
  fx <- func_numeric (Vec x_vals);;
  let rotated_y_vals_positive :=
    np.scale_r fx (Rtrigo_def.cos rotation_angle) in
  fx' <- func_numeric (Vec x_vals);;
  let rotated_y_vals_negative :=
    np.scale_r (np.negative fx') (Rtrigo_def.cos rotation_angle) in
  t1 <- go.Scatter (Vec x_vals) rotated_y_vals_positive
          (Some "lines") None (Some "blue") None None;;
  t2 <- go.Scatter (Vec x_vals) rotated_y_vals_negative
          (Some "lines") None (Some "blue") None None;;
  xs <- np.concatenate (Vec x_vals) (Vec (rev x_vals));;
  back <- np.reversed rotated_y_vals_negative;;
  ys <- np.concatenate rotated_y_vals_positive back;;
  t3 <- go.Scatter xs ys None (Some "Filled Area")
          (Some "rgba(255,255,255,0)") (Some "toself")
          (Some (frame_fillcolor i));;
  ret (go.Frame [t1; t2; t3]).

Definition update_output (n_clicks : Z) (func_str : string) (a b : R)
    : py (string * go.figure * go.figure * go.figure) :=
  if (n_clicks >? 0)%Z then
    let x := sp.symbols "x" in
    func <- sympify func_str;;
    let func_numeric := sp.lambdify x func in
    volume <- volume_disk_method func_numeric a b;;
    '(x_vals, y_vals, x_surface, Y, Z) <- get_plot_data func_numeric a b;;

    let function_fig := go.Figure [] in
    t <- go.Scatter (Vec x_vals) y_vals
           (Some "lines") (Some "f(x)") (Some "blue") None None;;
    let function_fig := go.add_trace function_fig t in
    t <- go.Scatter (Vec x_vals) (np.zeros_like (Vec x_vals))
           (Some "lines") (Some "x-axis") (Some "black") None None;;
    let function_fig := go.add_trace function_fig t in
    let function_fig :=
      go.update_layout_titles function_fig "Function f(x)" "x" "f(x)" true in

    frames <- for_each (surface_frame func_numeric x_surface)
                (seq 0 num_frames);;
    let final_surface :=
      go.Surface x_surface Y Z (go.NamedScale "Blues") (7 / 10) in
    let solid_fig := go.Figure [final_surface] in
    let solid_fig :=
      go.update_layout_scene solid_fig "Rotating Solid of Revolution"
        {| go.scene_xaxis_title := "X-axis";
           go.scene_yaxis_title := "Y-axis";
           go.scene_zaxis_title := "Z-axis" |} in
    let solid_fig := go.set_frames solid_fig frames in
    let solid_fig :=
      go.update_layout_menus solid_fig [menu [play_button; pause_button]] in

    let solid_2d_fig := go.Figure [] in
    t <- go.Scatter (Vec x_vals) y_vals
           (Some "lines") (Some "f(x)") (Some "blue") None None;;
    let solid_2d_fig := go.add_trace solid_2d_fig t in
    t <- go.Scatter (Vec x_vals) (np.zeros_like (Vec x_vals))
           (Some "lines") None (Some "black") None None;;
    let solid_2d_fig := go.add_trace solid_2d_fig t in
    let solid_2d_fig :=
      go.update_layout_titles solid_2d_fig
        "Area Being Rotated Around X-axis" "x" "f(x)" true in
    xs <- np.concatenate (Vec x_vals) (Vec (rev x_vals));;
    ys <- np.concatenate y_vals (np.zeros_like y_vals);;
    t <- go.Scatter xs ys None (Some "Area Under Curve")
           (Some "rgba(255,255,255,0)") (Some "toself")
           (Some "rgba(0, 100, 255, 0.7)");;
    let solid_2d_fig := go.add_trace solid_2d_fig t in
    solid_2d_frames <- for_each (section_frame func_numeric x_vals)
                         (seq 0 num_frames);;
    let solid_2d_fig := go.set_frames solid_2d_fig solid_2d_frames in
    let solid_2d_fig :=
      go.update_layout_menus solid_2d_fig [menu [play_button]] in

    ret (("The volume of the solid of revolution is: "
            ++ format_4f volume)%string,
         function_fig, solid_fig, solid_2d_fig)
  else
    ret (EmptyString, go.Figure [], go.Figure [], go.Figure []).

End DiskMethod.

(** ** [scipy.integrate.quad]

    The Python part of [quad] puts the limits in increasing order, hands
    the integrand to the QUADPACK routine [qags], and flips the sign of the
    value when the limits were given in decreasing order.  For limits that
    coincide the value and the error estimate are [0] and the integrand is
    not called.  The routine itself is a parameter. *)

Definition negate_value (r : R * R) : R * R := (- fst r, snd r).

Definition scipy_quad (qags : integrand -> R -> R -> py (R * R))
    : integrand -> R -> R -> py (R * R) :=
  fun g a b =>
    if Req_dec_T a b then ret (0, 0)
    else if Rlt_dec b a then r <- qags g b a;; ret (negate_value r)
    else qags g a b.

(** *** What the proofs assume of the integrator

    Each property is a separate predicate, so that a theorem names exactly
    the ones it needs. *)

(** An exception raised by the integrand escapes from [quad], when the
    integrand is called at all. *)
Definition quad_propagates (quad : integrand -> R -> R -> py (R * R)) : Prop :=
  forall g a b e, a <> b -> (forall x, g x = raise e) -> quad g a b = raise e.

(** Limits given in decreasing order: [quad] integrates over the ordered
    interval and flips the sign of the value. *)
Definition quad_reverses (quad : integrand -> R -> R -> py (R * R)) : Prop :=
  forall g a b, b < a ->
    quad g a b = (r <- quad g b a;; ret (negate_value r)).

(** An interval of length zero. *)
Definition quad_degenerate (quad : integrand -> R -> R -> py (R * R)) : Prop :=
  forall g a, quad g a a = ret (0, 0).

(** With the default tolerances and an integrand that returns a float at
    every point between the limits, [quad] returns (possibly after a
    warning). *)
Definition quad_total (quad : integrand -> R -> R -> py (R * R)) : Prop :=
  forall g a b,
    (forall x, Rmin a b <= x <= Rmax a b -> exists y, g x = ret (Scalar y)) ->
    exists ws v err, quad g a b = (ws, inr (v, err)).

Record quad_contract (quad : integrand -> R -> R -> py (R * R)) : Prop := {
  contract_total : quad_total quad;
  contract_propagates : quad_propagates quad;
  contract_reverses : quad_reverses quad;
  contract_degenerate : quad_degenerate quad
}.


(** The routine converts what the integrand returns to a float; a SymPy
    expression that holds a symbol has no float, and the [TypeError] of the
    conversion escapes. *)
Definition qags_needs_floats (qags : integrand -> R -> R -> py (R * R))
    : Prop :=
  forall g a b, a < b ->
    (forall x, a <= x <= b -> g x = ret Symbolic) ->
    qags g a b = raise TypeError.

(** ** Small integrators that stand in for the routine at concrete inputs *)

Definition epsabs : R := 149 / 10000000000.

Definition as_float (v : ndarray) : py R :=
  match v with
  | Scalar r => ret r
  | _ => raise TypeError
  end.

(** The midpoint rule on the whole interval against the midpoint rule on
    its two halves, their difference as the error estimate, and a warning
    when the estimate exceeds the default tolerance of [quad]. *)
Definition midpoint_rule (g : integrand) (a b : R) : py (R * R) :=
  let h := b - a in
  m <- (y <- g (a + h / 2);; as_float y);;
  l <- (y <- g (a + h / 4);; as_float y);;
  r <- (y <- g (a + 3 * h / 4);; as_float y);;
  let coarse := h * m in
  let fine := h / 2 * (l + r) in
  let abserr := Rabs (fine - coarse) in
  if Rle_dec abserr epsabs then ret (fine, abserr)
  else _ <- warn IntegrationWarning;; ret (fine, abserr).

Definition midpoint_quad : integrand -> R -> R -> py (R * R) :=
  scipy_quad midpoint_rule.

(** The same rule with one more halving and, as QUADPACK does, an
    extrapolation of the three estimates (Aitken's): what the sequence
    [s1, s2, s4] would converge to if its differences were geometric. *)
Definition aitken_rule (g : integrand) (a b : R) : py (R * R) :=
  let h := b - a in
  y1 <- (y <- g (a + h / 2);; as_float y);;
  y2 <- (y <- g (a + h / 4);; as_float y);;
  y3 <- (y <- g (a + 3 * h / 4);; as_float y);;
  y4 <- (y <- g (a + h / 8);; as_float y);;
  y5 <- (y <- g (a + 3 * h / 8);; as_float y);;
  y6 <- (y <- g (a + 5 * h / 8);; as_float y);;
  y7 <- (y <- g (a + 7 * h / 8);; as_float y);;
  let s1 := h * y1 in
  let s2 := h / 2 * (y2 + y3) in
  let s4 := h / 4 * (y4 + y5 + y6 + y7) in
  let d1 := s2 - s1 in
  let d2 := s4 - s2 in
  let value :=
    if Req_dec_T d2 d1 then s4 else s4 - d2 ^ 2 / (d2 - d1) in
  let abserr := Rabs (value - s4) in
  if Rle_dec abserr epsabs then ret (value, abserr)
  else _ <- warn IntegrationWarning;; ret (value, abserr).





(** ** A small parser that stands in for [sympify] at concrete inputs

    Sums of names and integer literals, blanks around them ignored;
    anything else is a [SympifyError]. *)

Definition is_blank (c : ascii) : bool := Ascii.eqb c " ".
Definition is_letter (c : ascii) : bool :=
  let n := nat_of_ascii c in
  ((65 <=? n) && (n <=? 90) || (97 <=? n) && (n <=? 122))%nat.
Definition is_digit (c : ascii) : bool :=
  let n := nat_of_ascii c in ((48 <=? n) && (n <=? 57))%nat.

Fixpoint all_chars (p : ascii -> bool) (s : string) : bool :=
  match s with
  | EmptyString => true
  | String c s' => p c && all_chars p s'
  end.

Fixpoint split_plus (s : string) : string * list string :=
  match s with
  | EmptyString => (EmptyString, [])
  | String c s' =>
      let (piece, pieces) := split_plus s' in
      if Ascii.eqb c "+" then (EmptyString, piece :: pieces)
      else (String c piece, pieces)
  end.

Fixpoint lstrip (s : string) : string :=
  match s with
  | String c s' => if is_blank c then lstrip s' else s
  | EmptyString => EmptyString
  end.

Fixpoint rstrip (s : string) : string :=
  match s with
  | EmptyString => EmptyString
  | String c s' =>
      match rstrip s' with
      | EmptyString => if is_blank c then EmptyString else String c EmptyString
      | t => String c t
      end
  end.

Definition parse_atom (s : string) : py sp.expr :=
  match lstrip (rstrip s) with
  | EmptyString => raise SympifyError
  | t =>
      if all_chars is_letter t then ret (sp.Symbol t)
      else if all_chars is_digit t then
        match NilZero.uint_of_string t with
        | Some d => ret (sp.Integer (Z.of_uint d))
        | None => raise SympifyError
        end
      else raise SympifyError
  end.

Fixpoint parse_sum (acc : sp.expr) (pieces : list string) : py sp.expr :=
  match pieces with
  | [] => ret acc
  | p :: ps => e <- parse_atom p;; parse_sum (sp.Add acc e) ps
  end.

Definition sum_sympify (s : string) : py sp.expr :=
  let (piece, pieces) := split_plus s in
  e <- parse_atom piece;; parse_sum e pieces.

(** ** Callables used at concrete inputs *)

(** [lambda x: 1 / float(x)]: a callable with a singularity at [0]. *)
Definition reciprocal : callable :=
  fun v =>
    match v with
    | Scalar x =>
        if Req_dec_T x 0 then raise ZeroDivisionError else ret (Scalar (/ x))
    | _ => raise TypeError
    end.

(** The pointwise negation [lambda x: -func(x)] of a callable. *)
Definition negated (func : callable) : callable :=
  fun v => y <- func v;; ret (np.negative y).

(** [lambdify(x, 1)], [lambdify(x, 5)] and [lambdify(x, x**2)]. *)
Definition one : callable := sp.lambdify (sp.symbols "x") (sp.Integer 1).
Definition five : callable := sp.lambdify (sp.symbols "x") (sp.Integer 5).
Definition square : callable :=
  sp.lambdify (sp.symbols "x") (sp.Pow (sp.Symbol "x") 2).

(** Entry [(i, j)] of a two-dimensional array. *)
Definition entry (m : matrix) (i j : nat) : R := nth j (nth i m []) 0.

(** ** The real function an expression over one symbol denotes *)

(** The first symbol, in evaluation order, that is not the argument. *)
Fixpoint first_unbound (arg : string) (e : sp.expr) : option string :=
  match e with
  | sp.Symbol name => if String.eqb name arg then None else Some name
  | sp.Integer _ => None
  | sp.Add e1 e2 | sp.Mul e1 e2 =>
      match first_unbound arg e1 with
      | Some name => Some name
      | None => first_unbound arg e2
      end
  | sp.Pow e1 _ => first_unbound arg e1
  end.

(** The value of [e] when its argument symbol is [x]; other symbols do not
    occur in the expressions this is used for. *)
Fixpoint denote (e : sp.expr) (x : R) : R :=
  match e with
  | sp.Symbol _ => x
  | sp.Integer n => IZR n
  | sp.Add e1 e2 => denote e1 x + denote e2 x
  | sp.Mul e1 e2 => denote e1 x * denote e2 x
  | sp.Pow e1 n => denote e1 x ^ n
  end.

(** Whether the argument occurs in [e]. *)
Fixpoint mentions (arg : string) (e : sp.expr) : bool :=
  match e with
  | sp.Symbol name => String.eqb name arg
  | sp.Integer _ => false
  | sp.Add e1 e2 | sp.Mul e1 e2 => mentions arg e1 || mentions arg e2
  | sp.Pow e1 _ => mentions arg e1
  end.

(** The value of [e] at [x], and of every part of [e], is in the range of
    floats: evaluating [e] at [x] meets no overflow. *)
Fixpoint in_range (e : sp.expr) (x : R) : Prop :=
  Rabs (denote e x) < operator.overflow_threshold
  /\ match e with
     | sp.Add e1 e2 | sp.Mul e1 e2 => in_range e1 x /\ in_range e2 x
     | sp.Pow e1 _ => in_range e1 x
     | _ => True
     end.

(** * Properties *)

(** ** The outcome monad *)

Lemma bind_ret_l {A B : Type} (v : A) (k : A -> py B) :
  (x <- ret v;; k x) = k v.
Proof. unfold bind, ret. now destruct (k v). Qed.

Lemma bind_raise {A B : Type} (e : exn) (k : A -> py B) :
  (x <- raise e;; k x) = raise e.
Proof. reflexivity. Qed.

Lemma bind_ret_r {A : Type} (m : py A) : (x <- m;; ret x) = m.
Proof.
  destruct m as [ws [e | v]]; simpl; [reflexivity |].
  now rewrite app_nil_r.
Qed.

Lemma bind_assoc {A B C : Type} (m : py A) (k : A -> py B) (h : B -> py C) :
  (y <- (x <- m;; k x);; h y) = (x <- m;; y <- k x;; h y).
Proof.
  destruct m as [ws [e | v]]; simpl; [reflexivity |].
  destruct (k v) as [ws' [e | w]]; simpl; [reflexivity |].
  destruct (h w) as [ws'' r]. now rewrite app_assoc.
Qed.

Lemma bind_escapes {A B : Type} (m : py A) (k : A -> py B) ws e :
  m = (ws, inl e) -> (x <- m;; k x) = (ws, inl e).
Proof. now intros ->. Qed.

Lemma bind_returned {A B : Type} (m : py A) (k : A -> py B) ws b :
  (x <- m;; k x) = (ws, inr b) ->
  exists ws1 a ws2,
    m = (ws1, inr a) /\ k a = (ws2, inr b) /\ ws = ws1 ++ ws2.
Proof.
  destruct m as [ws1 [e | a]]; simpl; [discriminate |].
  destruct (k a) as [ws2 r] eqn:Hk. intros H; inversion H; subst.
  now exists ws1, a, ws2.
Qed.

Lemma ret_returned {A : Type} (v w : A) ws :
  ret v = (ws, inr w) -> ws = [] /\ v = w.
Proof. unfold ret. intros H; inversion H; auto. Qed.

(** ** The range of floats *)

Lemma overflow_threshold_large : 1000000 < operator.overflow_threshold.
Proof.
  unfold operator.overflow_threshold.
  replace 1024%nat with (970 + 54)%nat by reflexivity.
  rewrite pow_add.
  assert (H970 : 2 ^ 20 <= 2 ^ 970) by (apply Rle_pow; [lra | lia]).
  assert (H54 : 2 ^ 1 <= 2 ^ 54) by (apply Rle_pow; [lra | lia]).
  assert (H20 : 2 ^ 20 = 1048576) by (simpl; lra).
  simpl (2 ^ 1) in H54. nra.
Qed.

Lemma small_in_range r :
  Rabs r <= 1000000 -> Rabs r < operator.overflow_threshold.
Proof. pose proof overflow_threshold_large. lra. Qed.

Lemma pow_scalar r n :
  Rabs (r ^ n) < operator.overflow_threshold ->
  operator.pow (Scalar r) n = ret (Scalar (r ^ n)).
Proof.
  intros H. unfold operator.pow.
  destruct (Rlt_dec _ _); [reflexivity | contradiction].
Qed.

(** ** The integrand *)

Lemma pow_negative (y : ndarray) :
  operator.pow (np.negative y) 2 = operator.pow y 2.
Proof.
  destruct y as [r | l |]; simpl.
  - replace (- r * (- r * 1)) with (r * (r * 1)) by ring. reflexivity.
  - do 2 f_equal. rewrite map_map. apply map_ext. intros r. ring.
  - reflexivity.
Qed.

Lemma disk_integrand_negated (func : callable) :
  disk_integrand (negated func) = disk_integrand func.
Proof.
  apply functional_extensionality. intros x.
  unfold disk_integrand, negated. rewrite bind_assoc.
  f_equal. apply functional_extensionality. intros y.
  now rewrite bind_ret_l, pow_negative.
Qed.

(** Where the callable returns a float [r] whose square is a float, the
    integrand returns [pi * r ^ 2]. *)
Lemma disk_integrand_scalar (func : callable) x ws r :
  func (Scalar x) = (ws, inr (Scalar r)) ->
  Rabs (r ^ 2) < operator.overflow_threshold ->
  disk_integrand func x = (ws, inr (Scalar (PI * r ^ 2))).
Proof.
  unfold disk_integrand. intros -> Hr. cbn [bind].
  rewrite (pow_scalar _ _ Hr). simpl. now rewrite app_nil_r.
Qed.

(** A value with [pi * r ^ 2] in the range of floats has its square there
    too. *)
Lemma square_in_range r :
  PI * r ^ 2 < operator.overflow_threshold ->
  Rabs (r ^ 2) < operator.overflow_threshold.
Proof.
  intros H. pose proof (pow2_ge_0 r). pose proof PI2_1.
  rewrite Rabs_pos_eq by assumption. nra.
Qed.

(** Where the callable returns a SymPy expression, so does the
    integrand. *)
Lemma disk_integrand_symbolic (func : callable) x :
  func (Scalar x) = ret Symbolic -> disk_integrand func x = ret Symbolic.
Proof. unfold disk_integrand. now intros ->. Qed.

(** What [volume_disk_method] does with the outcome of [quad]: the value is
    handed on, the error estimate is dropped, warnings and exceptions pass
    through. *)
Lemma volume_of_quad_value quad (func : callable) a b ws v err :
  quad (disk_integrand func) a b = (ws, inr (v, err)) ->
  volume_disk_method quad func a b = (ws, inr v).
Proof.
  unfold volume_disk_method. intros ->. simpl. now rewrite app_nil_r.
Qed.

Lemma volume_of_quad_exception quad (func : callable) a b ws e :
  quad (disk_integrand func) a b = (ws, inl e) ->
  volume_disk_method quad func a b = (ws, inl e).
Proof. unfold volume_disk_method. now intros ->. Qed.

(** ** [scipy_quad] *)

Lemma scipy_quad_point qags (g : integrand) a :
  scipy_quad qags g a a = ret (0, 0).
Proof.
  unfold scipy_quad. destruct (Req_dec_T a a); [reflexivity | contradiction].
Qed.

Lemma scipy_quad_ordered qags (g : integrand) a b :
  a < b -> scipy_quad qags g a b = qags g a b.
Proof.
  intros H. unfold scipy_quad.
  destruct (Req_dec_T a b); [lra |].
  destruct (Rlt_dec b a); [lra | reflexivity].
Qed.

Lemma scipy_quad_flipped qags (g : integrand) a b :
  b < a ->
  scipy_quad qags g a b = (r <- qags g b a;; ret (negate_value r)).
Proof.
  intros H. unfold scipy_quad.
  destruct (Req_dec_T a b); [lra |].
  destruct (Rlt_dec b a); [reflexivity | lra].
Qed.

Lemma scipy_quad_reverses qags : quad_reverses (scipy_quad qags).
Proof.
  intros g a b H.
  rewrite (scipy_quad_flipped qags g a b H).
  now rewrite (scipy_quad_ordered qags g b a H).
Qed.

Lemma scipy_quad_degenerate qags : quad_degenerate (scipy_quad qags).
Proof. intros g a. apply scipy_quad_point. Qed.

(** The volume for limits in decreasing order is the volume for the
    swapped limits with the opposite sign; warnings and exceptions are the
    same. *)
Lemma volume_flipped qags (func : callable) a b :
  b < a ->
  volume_disk_method (scipy_quad qags) func a b =
    (v <- volume_disk_method (scipy_quad qags) func b a;; ret (- v)).
Proof.
  intros H. unfold volume_disk_method.
  rewrite (scipy_quad_flipped _ _ _ _ H), (scipy_quad_ordered _ _ _ _ H).
  destruct (qags (disk_integrand func) b a) as [ws [e | [v err]]]; simpl;
    [reflexivity |].
  now rewrite !app_nil_r.
Qed.



(** ** The sample integrators *)

Lemma as_float_scalar (g : integrand) x ws y :
  g x = (ws, inr (Scalar y)) -> (v <- g x;; as_float v) = (ws, inr y).
Proof. intros ->. simpl. now rewrite app_nil_r. Qed.

(** The rule, once the integrand has returned a float at its three nodes. *)
Lemma midpoint_rule_scalar (g : integrand) a b wm wl wr m l r :
  g (a + (b - a) / 2) = (wm, inr (Scalar m)) ->
  g (a + (b - a) / 4) = (wl, inr (Scalar l)) ->
  g (a + 3 * (b - a) / 4) = (wr, inr (Scalar r)) ->
  exists ws,
    midpoint_rule g a b =
      (ws, inr ((b - a) / 2 * (l + r),
                Rabs ((b - a) / 2 * (l + r) - (b - a) * m)))
    /\ (Rabs ((b - a) / 2 * (l + r) - (b - a) * m) <= epsabs ->
        ws = wm ++ wl ++ wr)
    /\ (epsabs < Rabs ((b - a) / 2 * (l + r) - (b - a) * m) ->
        ws = wm ++ wl ++ wr ++ [IntegrationWarning]).
Proof.
  intros Hm Hl Hr. unfold midpoint_rule.
  rewrite (as_float_scalar _ _ _ _ Hm), (as_float_scalar _ _ _ _ Hl),
    (as_float_scalar _ _ _ _ Hr).
  cbn [bind].
  destruct (Rle_dec (Rabs ((b - a) / 2 * (l + r) - (b - a) * m)) epsabs)
    as [Hle | Hgt]; cbn.
  - eexists. split; [reflexivity |]. split; intros H.
    + now rewrite !app_nil_r.
    + lra.
  - eexists. split; [reflexivity |]. split; intros H.
    + lra.
    + reflexivity.
Qed.

Lemma midpoint_rule_total (g : integrand) a b :
  a < b ->
  (forall x, a <= x <= b -> exists y, g x = ret (Scalar y)) ->
  exists ws v err, midpoint_rule g a b = (ws, inr (v, err)).
Proof.
  intros Hab Hg.
  destruct (Hg (a + (b - a) / 2)) as [m Hm]; [lra |].
  destruct (Hg (a + (b - a) / 4)) as [l Hl]; [lra |].
  destruct (Hg (a + 3 * (b - a) / 4)) as [r Hr]; [lra |].
  destruct (midpoint_rule_scalar g a b [] [] [] m l r Hm Hl Hr)
    as (ws & Hq & _).
  rewrite Hq. now eexists _, _, _.
Qed.

Lemma midpoint_rule_needs_floats : qags_needs_floats midpoint_rule.
Proof.
  intros g a b Hab Hg. unfold midpoint_rule.
  rewrite (Hg (a + (b - a) / 2)) by lra. reflexivity.
Qed.

Lemma midpoint_quad_total : quad_total midpoint_quad.
Proof.
  intros g a b Hg. unfold midpoint_quad, scipy_quad.
  destruct (Req_dec_T a b) as [Heq | Hne]; [now eexists _, _, _ |].
  destruct (Rlt_dec b a) as [Hba | Hab].
  - rewrite Rmin_right, Rmax_left in Hg by lra.
    destruct (midpoint_rule_total g b a Hba Hg) as (ws & v & err & ->).
    simpl. now eexists _, _, _.
  - rewrite Rmin_left, Rmax_right in Hg by lra.
    apply midpoint_rule_total; [lra | assumption].
Qed.

Lemma midpoint_quad_propagates : quad_propagates midpoint_quad.
Proof.
  intros g a b e Hne H.
  assert (Hrule : forall a' b', midpoint_rule g a' b' = raise e).
  { intros a' b'. unfold midpoint_rule. now rewrite !H. }
  unfold midpoint_quad, scipy_quad.
  destruct (Req_dec_T a b); [contradiction |].
  destruct (Rlt_dec b a); now rewrite Hrule.
Qed.

Lemma midpoint_quad_contract : quad_contract midpoint_quad.
Proof.
  constructor.
  - exact midpoint_quad_total.
  - exact midpoint_quad_propagates.
  - exact (scipy_quad_reverses midpoint_rule).
  - exact (scipy_quad_degenerate midpoint_rule).
Qed.

(** The extrapolating rule, once the integrand has returned a float at its
    seven nodes without a warning. *)
Lemma aitken_rule_scalar (g : integrand) a b y1 y2 y3 y4 y5 y6 y7 :
  g (a + (b - a) / 2) = ret (Scalar y1) ->
  g (a + (b - a) / 4) = ret (Scalar y2) ->
  g (a + 3 * (b - a) / 4) = ret (Scalar y3) ->
  g (a + (b - a) / 8) = ret (Scalar y4) ->
  g (a + 3 * (b - a) / 8) = ret (Scalar y5) ->
  g (a + 5 * (b - a) / 8) = ret (Scalar y6) ->
  g (a + 7 * (b - a) / 8) = ret (Scalar y7) ->
  let s1 := (b - a) * y1 in
  let s2 := (b - a) / 2 * (y2 + y3) in
  let s4 := (b - a) / 4 * (y4 + y5 + y6 + y7) in
  s4 - s2 <> s2 - s1 ->
  exists ws err,
    aitken_rule g a b =
      (ws, inr (s4 - (s4 - s2) ^ 2 / (s4 - s2 - (s2 - s1)), err)).
Proof.
  intros H1 H2 H3 H4 H5 H6 H7 s1 s2 s4 Hd. unfold aitken_rule.
  rewrite (as_float_scalar _ _ _ _ H1), (as_float_scalar _ _ _ _ H2),
    (as_float_scalar _ _ _ _ H3), (as_float_scalar _ _ _ _ H4),
    (as_float_scalar _ _ _ _ H5), (as_float_scalar _ _ _ _ H6),
    (as_float_scalar _ _ _ _ H7).
  cbn [bind]. fold s1 s2 s4.
  destruct (Req_dec_T (s4 - s2) (s2 - s1)) as [Heq | _]; [contradiction |].
  destruct (Rle_dec _ _); cbn; now eexists _, _.
Qed.



(** ** Concrete runs used as instances *)

Lemma disk_integrand_one x : disk_integrand one x = ret (Scalar (PI * 1 ^ 2)).
Proof.
  apply disk_integrand_scalar; [reflexivity |].
  apply small_in_range. rewrite Rabs_pos_eq; lra.
Qed.

Lemma unit_volume_ordered a b :
  a < b ->
  volume_disk_method midpoint_quad one a b =
    ret ((b - a) / 2 * (PI * 1 ^ 2 + PI * 1 ^ 2)).
Proof.
  intros Hab. unfold midpoint_quad.
  destruct (midpoint_rule_scalar (disk_integrand one) a b [] [] []
              (PI * 1 ^ 2) (PI * 1 ^ 2) (PI * 1 ^ 2))
    as (ws & Hq & Hws & _); try apply disk_integrand_one.
  rewrite <- (scipy_quad_ordered midpoint_rule) in Hq by assumption.
  rewrite (volume_of_quad_value _ _ _ _ _ _ _ Hq).
  rewrite Hws; [reflexivity |].
  replace ((b - a) / 2 * (PI * 1 ^ 2 + PI * 1 ^ 2) - (b - a) * (PI * 1 ^ 2))
    with 0 by lra.
  rewrite Rabs_R0. unfold epsabs. lra.
Qed.


Lemma reciprocal_nonzero x :
  x <> 0 -> reciprocal (Scalar x) = ret (Scalar (/ x)).
Proof.
  intros Hx. unfold reciprocal.
  destruct (Req_dec_T x 0); [contradiction | reflexivity].
Qed.

(** Away from the singularity the integrand of [1/x] is [pi / x^2]. *)
Lemma reciprocal_integrand x :
  / 1000 <= x ->
  disk_integrand reciprocal x = ret (Scalar (PI * (/ x) ^ 2)).
Proof.
  intros Hx. assert (0 < x) by lra.
  apply disk_integrand_scalar; [apply reciprocal_nonzero; lra |].
  apply small_in_range.
  assert (0 < / x) by now apply Rinv_0_lt_compat.
  assert (/ x <= 1000).
  { replace 1000 with (/ / 1000) by (field_simplify; lra).
    apply Rinv_le_contravar; lra. }
  rewrite Rabs_pos_eq by nra. nra.
Qed.

(** On [1/x] over [0, 1] the midpoint rule does not meet its tolerance: it
    warns, and returns its estimate. *)
Lemma reciprocal_does_not_converge :
  exists v err,
    midpoint_quad (disk_integrand reciprocal) 0 1
      = ([IntegrationWarning], inr (v, err)).
Proof.
  unfold midpoint_quad. rewrite scipy_quad_ordered by lra.
  destruct (midpoint_rule_scalar (disk_integrand reciprocal) 0 1 [] [] []
              (PI * (/ (0 + (1 - 0) / 2)) ^ 2)
              (PI * (/ (0 + (1 - 0) / 4)) ^ 2)
              (PI * (/ (0 + 3 * (1 - 0) / 4)) ^ 2))
    as (ws & Hq & _ & Hws);
    try (apply reciprocal_integrand; lra).
  rewrite Hq, Hws; [now eexists _, _ |].
  match goal with
  | |- _ < Rabs ?t => replace t with (44 / 9 * PI) by (field_simplify; lra)
  end.
  pose proof PI2_1. rewrite Rabs_right by lra. unfold epsabs. lra.
Qed.

(** On [1/x] over [0, 1] the extrapolating rule returns a negative value:
    the estimates [4 pi], [80/9 pi] and [206656/11025 pi] grow faster and
    faster, and the limit extrapolated for them lies behind them. *)
Lemma reciprocal_extrapolates_below_zero :
  exists ws v,
    volume_disk_method (scipy_quad aitken_rule) reciprocal 0 1 = (ws, inr v)
    /\ v < 0.
Proof.
  pose proof PI_RGT_0 as Hpi.
  assert (H1 : (1 - 0) * (PI * (/ (0 + (1 - 0) / 2)) ^ 2) = 4 * PI)
    by (field_simplify; lra).
  assert (H2 : (1 - 0) / 2 * (PI * (/ (0 + (1 - 0) / 4)) ^ 2
                              + PI * (/ (0 + 3 * (1 - 0) / 4)) ^ 2)
               = 80 / 9 * PI) by (field_simplify; lra).
  assert (H4 : (1 - 0) / 4 * (PI * (/ (0 + (1 - 0) / 8)) ^ 2
                              + PI * (/ (0 + 3 * (1 - 0) / 8)) ^ 2
                              + PI * (/ (0 + 5 * (1 - 0) / 8)) ^ 2
                              + PI * (/ (0 + 7 * (1 - 0) / 8)) ^ 2)
               = 206656 / 11025 * PI) by (field_simplify; lra).
  destruct (aitken_rule_scalar (disk_integrand reciprocal) 0 1
              (PI * (/ (0 + (1 - 0) / 2)) ^ 2)
              (PI * (/ (0 + (1 - 0) / 4)) ^ 2)
              (PI * (/ (0 + 3 * (1 - 0) / 4)) ^ 2)
              (PI * (/ (0 + (1 - 0) / 8)) ^ 2)
              (PI * (/ (0 + 3 * (1 - 0) / 8)) ^ 2)
              (PI * (/ (0 + 5 * (1 - 0) / 8)) ^ 2)
              (PI * (/ (0 + 7 * (1 - 0) / 8)) ^ 2))
    as (ws & err & Hq);
    try (apply reciprocal_integrand; lra).
  { cbv zeta. rewrite H1, H2, H4. lra. }
  rewrite H1, H2, H4 in Hq.
  rewrite <- (scipy_quad_ordered aitken_rule) in Hq by lra.
  eexists _, _. split; [exact (volume_of_quad_value _ _ _ _ _ _ _ Hq) |].
  replace (206656 / 11025 * PI
           - (206656 / 11025 * PI - 80 / 9 * PI) ^ 2
             / (206656 / 11025 * PI - 80 / 9 * PI - (80 / 9 * PI - 4 * PI)))
    with (- (100096 / 123201) * PI); [lra |].
  field. lra.
Qed.

(** ** The volume *)

(** C4: the volume does not depend on the sign of [f]: the volume computed
    for the pointwise negation of a callable is the volume computed for the
    callable, whatever the integrator, because the integrand squares the
    value of [f]. *)
Theorem volume_sign_independent quad (func : callable) a b :
  volume_disk_method quad (negated func) a b = volume_disk_method quad func a b.
Proof. unfold volume_disk_method. now rewrite disk_integrand_negated. Qed.







(** C3: when the two limits coincide the volume returned is exactly [0],
    for every callable: [quad] does not call the integrand. *)
Theorem volume_zero_on_point qags (func : callable) a :
  volume_disk_method (scipy_quad qags) func a a = ret 0.
Proof. apply volume_of_quad_value with 0. apply scipy_quad_point. Qed.

(** C7, as amended: with [a > b] no error is raised for the order of the
    limits.  The call has the outcome of the call with the limits swapped:
    where that one returns a volume, this one returns its opposite, with
    the same warnings; where that one raises, this one raises the same. *)
Theorem volume_swapped_limits qags (func : callable) a b :
  b < a ->
  (forall ws v,
     volume_disk_method (scipy_quad qags) func b a = (ws, inr v) ->
     volume_disk_method (scipy_quad qags) func a b = (ws, inr (- v)))
  /\ (forall ws e,
        volume_disk_method (scipy_quad qags) func b a = (ws, inl e) ->
        volume_disk_method (scipy_quad qags) func a b = (ws, inl e)).
Proof.
  intros Hba. rewrite (volume_flipped _ _ _ _ Hba).
  split; intros ws r ->; simpl; [now rewrite app_nil_r | reflexivity].
Qed.

Lemma volume_swapped_limits_witness :
  volume_disk_method midpoint_quad one 1 0
    = ([], inr (- ((1 - 0) / 2 * (PI * 1 ^ 2 + PI * 1 ^ 2)))).
Proof.
  apply (volume_swapped_limits midpoint_rule one 1 0); [lra |].
  apply unit_volume_ordered. lra.
Defined.

(** C7, as stated, fails: for [1/x] and the limits [1, 0] the extrapolating
    rule gives a positive volume, and a negative one for the limits [0, 1]:
    the volume of the swapped call is the opposite of the volume, not its
    magnitude. *)
Lemma swapped_volume_is_not_the_magnitude :
  ~ (forall qags (func : callable) a b, b < a ->
       raises (volume_disk_method (scipy_quad qags) func a b)
       \/ exists ws v ws',
            volume_disk_method (scipy_quad qags) func a b = (ws, inr v)
            /\ volume_disk_method (scipy_quad qags) func b a
               = (ws', inr (Rabs v))).
Proof.
  intros H.
  destruct reciprocal_extrapolates_below_zero as (ws0 & v0 & Hv0 & Hneg).
  destruct (H aitken_rule reciprocal 1 0) as [(ws & e & He) | H']; [lra | |].
  - rewrite volume_flipped, Hv0 in He by lra. discriminate.
  - destruct H' as (ws & v & ws' & _ & Hswap).
    rewrite Hv0 in Hswap. injection Hswap as _ Hv.
    pose proof (Rabs_pos v). lra.
Qed.

(** ** Non-convergence *)

(** C8, as amended: when [quad] does not converge it emits an
    [IntegrationWarning] and still returns its estimate;
    [volume_disk_method] returns that estimate, with the warning, and raises
    nothing. *)
Theorem nonconvergence_returns_estimate quad (func : callable) a b ws v err :
  quad (disk_integrand func) a b = (ws, inr (v, err)) ->
  In IntegrationWarning ws ->
  volume_disk_method quad func a b = (ws, inr v).
Proof.
  intros Hq _. unfold volume_disk_method. rewrite Hq. simpl.
  now rewrite app_nil_r.
Qed.

Lemma nonconvergence_returns_estimate_witness :
  exists v,
    volume_disk_method midpoint_quad reciprocal 0 1
      = ([IntegrationWarning], inr v).
Proof.
  destruct reciprocal_does_not_converge as (v & err & Hq).
  exists v.
  apply (nonconvergence_returns_estimate
           midpoint_quad reciprocal 0 1 _ v err Hq).
  now left.
Defined.

(** C8, as stated, fails: for [f(x) = 1/x] over [0, 1] the integrator
    reports that it did not converge, and the volume is returned all the
    same. *)
Lemma nonconvergence_is_not_raised :
  ~ (forall quad, quad_contract quad ->
     forall (func : callable) a b ws v err,
       quad (disk_integrand func) a b = (ws, inr (v, err)) ->
       In IntegrationWarning ws ->
       raises (volume_disk_method quad func a b)).
Proof.
  intros H.
  destruct reciprocal_does_not_converge as (v & err & Hq).
  destruct (H midpoint_quad midpoint_quad_contract reciprocal 0 1 _ v err Hq)
    as (ws & e & He).
  - now left.
  - rewrite (volume_of_quad_value _ _ _ _ _ _ _ Hq) in He. discriminate.
Qed.

(** ** The callback *)

Example sum_sympify_x_plus_y :
  sum_sympify "x + y" = ret (sp.Add (sp.Symbol "x") (sp.Symbol "y")).
Proof. reflexivity. Qed.

Example sum_sympify_dangling : sum_sympify "x + " = raise SympifyError.
Proof. reflexivity. Qed.

Example sum_sympify_empty : sum_sympify EmptyString = raise SympifyError.
Proof. reflexivity. Qed.

Example sum_sympify_literal :
  sum_sympify "x + 12" = ret (sp.Add (sp.Symbol "x") (sp.Integer 12)).
Proof. reflexivity. Qed.

Lemma clicked (n_clicks : Z) : (n_clicks > 0)%Z -> (n_clicks >? 0)%Z = true.
Proof. intros H. apply Z.gtb_lt. lia. Qed.

(** C10: before the first click ([n_clicks = 0]) the callback returns the
    empty string and three empty figures, whatever the expression and the
    limits, and whatever the parser and the integrator would do with them:
    neither is called. *)
Theorem update_output_before_first_click
    quad sympify format_4f (func_str : string) (a b : R) :
  update_output quad sympify format_4f 0 func_str a b
    = ret (EmptyString, go.Figure [], go.Figure [], go.Figure []).
Proof. reflexivity. Qed.

(** C5, as amended: when [sympify] rejects the text, the callback does not
    handle the exception: the [SympifyError] escapes from [update_output] to
    the framework, and no message and no figure is returned. *)
Theorem sympify_error_escapes
    quad sympify format_4f (n_clicks : Z) (func_str : string) (a b : R) ws e :
  (n_clicks > 0)%Z ->
  sympify func_str = (ws, inl e) ->
  update_output quad sympify format_4f n_clicks func_str a b = (ws, inl e).
Proof.
  intros Hn Hs. unfold update_output.
  rewrite (clicked _ Hn). now apply bind_escapes.
Qed.

Lemma sympify_error_escapes_witness :
  update_output midpoint_quad sum_sympify (fun _ => "0.0000") 1 "x + " 0 1
    = ([], inl SympifyError).
Proof.
  apply (sympify_error_escapes midpoint_quad sum_sympify _ 1 "x + " 0 1).
  - lia.
  - reflexivity.
Defined.

(** C5, as stated, fails: on the text ["x + "] the callback returns
    nothing; the exception of the parser is its outcome. *)
Lemma malformed_expression_is_not_handled :
  ~ (forall quad sympify format_4f (n_clicks : Z) (func_str : string) a b,
       (n_clicks > 0)%Z ->
       raises (sympify func_str) ->
       exists ws out,
         update_output quad sympify format_4f n_clicks func_str a b
           = (ws, inr out)).
Proof.
  intros H.
  destruct (H midpoint_quad sum_sympify (fun _ => "0.0000") 1%Z "x + " 0 1)
    as (ws & out & Hout).
  - lia.
  - now exists [], SympifyError.
  - unfold update_output in Hout. simpl in Hout. discriminate.
Qed.

(** ** Expressions with a second symbol *)

(** For ["x + y"], or any other name in the place of [y], the generated
    function returns a SymPy expression whenever it is called on a
    float. *)
Lemma second_symbol_stays name x :
  name <> "x" ->
  sp.lambdify (sp.symbols "x") (sp.Add (sp.Symbol "x") (sp.Symbol name))
    (Scalar x) = ret Symbolic.
Proof.
  intros Hne. apply String.eqb_neq in Hne. simpl. now rewrite Hne.
Qed.

(** A generated function returns a SymPy expression on a float only for
    an expression that holds a symbol other than the argument. *)
Lemma symbolic_has_second_symbol arg (e : sp.expr) x ws :
  sp.run arg e (Scalar x) = (ws, inr Symbolic) ->
  exists name, In name (sp.free_symbols e) /\ name <> arg.
Proof.
  revert ws.
  induction e as [name | n | e1 IH1 e2 IH2 | e1 IH1 e2 IH2 | e1 IH1 n];
    simpl; intros ws H.
  - destruct (String.eqb name arg) eqn:E; [discriminate |].
    exists name. split; [auto | now apply String.eqb_neq].
  - discriminate.
  - apply bind_returned in H as (ws1 & v1 & ws2 & H1 & H & ->).
    apply bind_returned in H as (ws3 & v2 & ws4 & H2 & H & ->).
    destruct v1 as [r1 | l1 |];
      [| | destruct (IH1 _ H1) as (name & Hin & Hne); exists name;
           rewrite in_app_iff; auto];
      (destruct v2 as [r2 | l2 |];
       [| | destruct (IH2 _ H2) as (name & Hin & Hne); exists name;
            rewrite in_app_iff; auto]);
      simpl in H; repeat destruct (_ =? _)%nat in H; discriminate.
  - apply bind_returned in H as (ws1 & v1 & ws2 & H1 & H & ->).
    apply bind_returned in H as (ws3 & v2 & ws4 & H2 & H & ->).
    destruct v1 as [r1 | l1 |];
      [| | destruct (IH1 _ H1) as (name & Hin & Hne); exists name;
           rewrite in_app_iff; auto];
      (destruct v2 as [r2 | l2 |];
       [| | destruct (IH2 _ H2) as (name & Hin & Hne); exists name;
            rewrite in_app_iff; auto]);
      simpl in H; repeat destruct (_ =? _)%nat in H; discriminate.
  - apply bind_returned in H as (ws1 & v1 & ws2 & H1 & H & ->).
    destruct v1 as [r1 | l1 |]; [| | now apply IH1 with ws1].
    + unfold operator.pow in H. destruct (Rlt_dec _ _); discriminate.
    + discriminate.
Qed.

Lemma scipy_quad_needs_floats qags (g : integrand) a b :
  qags_needs_floats qags ->
  a <> b ->
  (forall x, Rmin a b <= x <= Rmax a b -> g x = ret Symbolic) ->
  scipy_quad qags g a b = raise TypeError.
Proof.
  intros Hqags Hne Hg. unfold scipy_quad.
  destruct (Req_dec_T a b); [contradiction |].
  destruct (Rlt_dec b a) as [Hba | Hab].
  - rewrite Rmin_right, Rmax_left in Hg by lra.
    now rewrite (Hqags g b a Hba Hg).
  - rewrite Rmin_left, Rmax_right in Hg by lra.
    apply Hqags; [lra | assumption].
Qed.

(** The callback on an expression whose function returns a SymPy
    expression: parsing and [lambdify] succeed, the conversion to a float
    fails inside [quad], and the [TypeError] escapes through
    [volume_disk_method] and [update_output]. *)
Lemma update_output_symbolic
    qags sympify format_4f (n_clicks : Z) (func_str : string) (a b : R)
    ws (func : sp.expr) :
  qags_needs_floats qags ->
  (n_clicks > 0)%Z ->
  sympify func_str = (ws, inr func) ->
  (forall x, Rmin a b <= x <= Rmax a b ->
     sp.lambdify (sp.symbols "x") func (Scalar x) = ret Symbolic) ->
  a <> b ->
  update_output (scipy_quad qags) sympify format_4f n_clicks func_str a b
    = (ws, inl TypeError).
Proof.
  intros Hqags Hn Hs Hfunc Hne. unfold update_output.
  rewrite (clicked _ Hn), Hs.
  assert (Hv : volume_disk_method (scipy_quad qags)
                 (sp.lambdify (sp.symbols "x") func) a b
               = raise TypeError).
  { apply volume_of_quad_exception.
    apply scipy_quad_needs_floats; try assumption.
    intros x Hx. apply disk_integrand_symbolic. auto. }
  cbn [bind]. rewrite Hv. simpl. now rewrite app_nil_r.
Qed.

(** C6, as amended: an expression with a second symbol (["x + y"], say) is
    parsed and turned into a callable without complaint.  Where the
    callable returns a SymPy expression instead of a number between the
    limits, and the limits differ, [quad] cannot convert what it gets to a
    float: a [TypeError] escapes from the callback, not an error of the
    parser. *)
Theorem second_symbol_is_a_type_error
    qags sympify format_4f (n_clicks : Z) (func_str : string) (a b : R)
    ws (func : sp.expr) :
  qags_needs_floats qags ->
  (n_clicks > 0)%Z ->
  sympify func_str = (ws, inr func) ->
  (forall x, Rmin a b <= x <= Rmax a b ->
     sp.lambdify (sp.symbols "x") func (Scalar x) = ret Symbolic) ->
  a <> b ->
  (exists name, In name (sp.free_symbols func) /\ name <> "x")
  /\ update_output (scipy_quad qags) sympify format_4f n_clicks func_str a b
     = (ws, inl TypeError).
Proof.
  intros Hqags Hn Hs Hfunc Hne.
  split; [| now apply update_output_symbolic with func].
  apply (symbolic_has_second_symbol "x" func a []).
  apply Hfunc. split; [apply Rmin_l | apply Rmax_l].
Qed.

Lemma second_symbol_is_a_type_error_witness :
  (exists name,
     In name (sp.free_symbols (sp.Add (sp.Symbol "x") (sp.Symbol "y")))
     /\ name <> "x")
  /\ update_output midpoint_quad sum_sympify (fun _ => "0.0000") 1 "x + y" 0 1
     = ([], inl TypeError).
Proof.
  apply (second_symbol_is_a_type_error
           midpoint_rule sum_sympify _ 1 "x + y" 0 1).
  - exact midpoint_rule_needs_floats.
  - lia.
  - reflexivity.
  - intros x _. apply second_symbol_stays. discriminate.
  - lra.
Defined.

(** C6, as stated, fails: for ["x + y"] the exception that comes out of the
    callback is the [TypeError] of the integration, not an error of the
    parser. *)
Lemma two_symbols_are_not_a_parse_error :
  ~ (forall qags sympify format_4f,
       qags_needs_floats qags ->
       sympify "x + y" = ret (sp.Add (sp.Symbol "x") (sp.Symbol "y")) ->
       forall (n_clicks : Z) a b,
         (n_clicks > 0)%Z ->
         update_output (scipy_quad qags) sympify format_4f n_clicks "x + y" a b
           = raise SympifyError).
Proof.
  intros H.
  assert (Hn : (1 > 0)%Z) by lia.
  specialize (H midpoint_rule sum_sympify (fun _ => "0.0000")
                midpoint_rule_needs_floats eq_refl 1%Z 0 1 Hn).
  assert (Hout : update_output (scipy_quad midpoint_rule) sum_sympify
                   (fun _ => "0.0000") 1 "x + y" 0 1 = ([], inl TypeError)).
  { apply update_output_symbolic
      with (func := sp.Add (sp.Symbol "x") (sp.Symbol "y")).
    - exact midpoint_rule_needs_floats.
    - exact Hn.
    - reflexivity.
    - intros x _. apply second_symbol_stays. discriminate.
    - lra. }
  rewrite Hout in H. discriminate.
Qed.

(** ** [np.linspace] *)

(** With at least two samples, [linspace] is the affine ramp on all points
    but the last, followed by [stop]. *)
Lemma linspace_unfold start stop n :
  np.linspace start stop (S (S n)) =
    map (fun i => INR i * ((stop - start) / INR (S n)) + start) (seq 0 (S n))
    ++ [stop].
Proof.
  unfold np.linspace.
  replace (1 <? S (S n))%nat with true by (symmetry; now apply Nat.ltb_lt; lia).
  replace (S (S n) - 1)%nat with (S n) by lia.
  rewrite (seq_S (S n) 0), map_app. simpl map at 2.
  now rewrite removelast_last.
Qed.

Lemma linspace_length start stop n :
  List.length (np.linspace start stop (S (S n))) = S (S n).
Proof.
  rewrite linspace_unfold, length_app, length_map, length_seq. simpl. lia.
Qed.

Lemma linspace_nth start stop n i :
  (i <= S n)%nat ->
  nth i (np.linspace start stop (S (S n))) 0
    = start + INR i * ((stop - start) / INR (S n)).
Proof.
  intros Hi. rewrite linspace_unfold.
  set (ramp := fun i => INR i * ((stop - start) / INR (S n)) + start).
  destruct (Nat.eq_dec i (S n)) as [-> | Hne].
  - rewrite app_nth2; rewrite length_map, length_seq; [| lia].
    rewrite Nat.sub_diag. simpl nth.
    assert (INR (S n) <> 0) by (apply not_0_INR; lia).
    field. assumption.
  - rewrite app_nth1 by (rewrite length_map, length_seq; lia).
    rewrite (nth_indep _ 0 (ramp 0%nat))
      by (rewrite length_map, length_seq; lia).
    rewrite map_nth, seq_nth by lia. unfold ramp. simpl (0 + i)%nat. lra.
Qed.

Lemma INR_99 : INR 99 = 99.
Proof. rewrite INR_IZR_INZ. reflexivity. Qed.

Lemma linspace_100_length start stop :
  List.length (np.linspace start stop 100) = 100%nat.
Proof. apply linspace_length. Qed.

Lemma linspace_100_nth start stop i :
  (i < 100)%nat ->
  nth i (np.linspace start stop 100) 0 = start + INR i * ((stop - start) / 99).
Proof. intros Hi. rewrite linspace_nth by lia. now rewrite INR_99. Qed.

(** ** Arrays *)

Lemma nth_map_lt {A B : Type} (g : A -> B) (l : list A) i d d' :
  (i < List.length l)%nat -> nth i (map g l) d' = g (nth i l d).
Proof.
  intros Hi. rewrite (nth_indep _ d' (g d)) by now rewrite length_map.
  apply map_nth.
Qed.

Lemma nth_repeat_lt (x d : R) n j : (j < n)%nat -> nth j (repeat x n) d = x.
Proof.
  intros Hj. rewrite (nth_indep _ d x) by now rewrite repeat_length.
  apply nth_repeat.
Qed.

Lemma cos_vec (l : list R) : np.cos (Vec l) = Vec (map cos l).
Proof. reflexivity. Qed.

Lemma sin_vec (l : list R) : np.sin (Vec l) = Vec (map sin l).
Proof. reflexivity. Qed.

Lemma outer_vec (u v : list R) :
  np.outer (Vec u) (Vec v) = ret (np.outer_product u v).
Proof. reflexivity. Qed.

Lemma outer_scalar (c : R) (v : list R) :
  np.outer (Scalar c) (Vec v) = ret (np.outer_product [c] v).
Proof. reflexivity. Qed.


Lemma entry_repeat_newaxis (X : list R) n i j :
  (i < List.length X)%nat -> (j < n)%nat ->
  entry (np.repeat_newaxis X n) i j = nth i X 0.
Proof.
  intros Hi Hj. unfold entry, np.repeat_newaxis.
  rewrite (nth_map_lt _ X i 0 []) by assumption.
  now apply nth_repeat_lt.
Qed.

Lemma outer_shape (u v : list R) :
  List.length (np.outer_product u v) = List.length u
  /\ Forall (fun row => List.length row = List.length v)
       (np.outer_product u v).
Proof.
  unfold np.outer_product. split; [apply length_map |].
  apply Forall_forall. intros row Hrow.
  apply in_map_iff in Hrow as (x & <- & _). apply length_map.
Qed.

Lemma repeat_newaxis_shape (X : list R) n :
  List.length (np.repeat_newaxis X n) = List.length X
  /\ Forall (fun row => List.length row = n) (np.repeat_newaxis X n).
Proof.
  unfold np.repeat_newaxis. split; [apply length_map |].
  apply Forall_forall. intros row Hrow.
  apply in_map_iff in Hrow as (x & <- & _). apply repeat_length.
Qed.


(** ** Sampling *)

(** What [get_plot_data] returns for a callable that works element by
    element. *)
Lemma get_plot_data_vectorized (f : R -> R) (func : callable) a b :
  (forall l, func (Vec l) = ret (Vec (map f l))) ->
  get_plot_data func a b =
    ret (np.linspace a b 100,
         Vec (map f (np.linspace a b 100)),
         np.repeat_newaxis (np.linspace a b 100) 100,
         np.outer_product (map f (np.linspace a b 100))
           (map cos (np.linspace 0 (2 * np.pi) 100)),
         np.outer_product (map f (np.linspace a b 100))
           (map sin (np.linspace 0 (2 * np.pi) 100))).
Proof.
  intros Hfunc. unfold get_plot_data. cbv zeta.
  rewrite !Hfunc, cos_vec, sin_vec.
  repeat (rewrite bind_ret_l || rewrite outer_vec).
  now rewrite linspace_100_length.
Qed.

(** What it returns for a callable that gives the same number whatever the
    array, as the function generated for a constant expression does. *)
Lemma get_plot_data_constant (func : callable) (c : R) a b :
  (forall l, func (Vec l) = ret (Scalar c)) ->
  exists x_surface Y Z,
    get_plot_data func a b =
      ret (np.linspace a b 100, Scalar c, x_surface, Y, Z).
Proof.
  intros Hfunc. unfold get_plot_data. cbv zeta.
  rewrite !Hfunc, cos_vec, sin_vec.
  repeat (rewrite bind_ret_l || rewrite outer_scalar).
  now eexists _, _, _.
Qed.

(** C9, as amended: for a callable that works element by element on
    arrays, the plot samples are 100 pairs [(x, f(x))]; the abscissas start
    at [a], end at [b] and are equally spaced, [(b - a) / 99] apart, in the
    order of their index. *)
Theorem plot_samples (f : R -> R) (func : callable) a b :
  (forall l, func (Vec l) = ret (Vec (map f l))) ->
  exists x_vals y_vals x_surface Y Z,
    get_plot_data func a b = ret (x_vals, Vec y_vals, x_surface, Y, Z)
    /\ List.length x_vals = 100%nat
    /\ List.length y_vals = 100%nat
    /\ combine x_vals y_vals = map (fun x => (x, f x)) x_vals
    /\ nth 0 x_vals 0 = a
    /\ nth 99 x_vals 0 = b
    /\ (forall i, (i < 100)%nat ->
          nth i x_vals 0 = a + INR i * ((b - a) / 99))
    /\ (forall i, (i < 99)%nat ->
          nth (S i) x_vals 0 - nth i x_vals 0 = (b - a) / 99).
Proof.
  intros Hfunc.
  assert (Hnth : forall i, (i < 100)%nat ->
            nth i (np.linspace a b 100) 0 = a + INR i * ((b - a) / 99))
    by (intros i Hi; now apply linspace_100_nth).
  exists (np.linspace a b 100), (map f (np.linspace a b 100)).
  eexists _, _, _. split; [now apply get_plot_data_vectorized |].
  split; [apply linspace_length |].
  split; [rewrite length_map; apply linspace_length |].
  split.
  { generalize (np.linspace a b 100). intros l.
    induction l as [| x l IH]; simpl; [reflexivity | now rewrite IH]. }
  split.
  { rewrite Hnth by lia. simpl INR. lra. }
  split.
  { rewrite Hnth by lia. rewrite INR_99. field. }
  split; [exact Hnth |].
  intros i Hi. rewrite !Hnth by lia. rewrite S_INR. lra.
Qed.

Lemma plot_samples_witness :
  exists x_vals y_vals x_surface Y Z,
    get_plot_data square 0 1 = ret (x_vals, Vec y_vals, x_surface, Y, Z)
    /\ List.length x_vals = 100%nat
    /\ List.length y_vals = 100%nat
    /\ combine x_vals y_vals = map (fun x => (x, x ^ 2)) x_vals
    /\ nth 0 x_vals 0 = 0
    /\ nth 99 x_vals 0 = 1
    /\ (forall i, (i < 100)%nat ->
          nth i x_vals 0 = 0 + INR i * ((1 - 0) / 99))
    /\ (forall i, (i < 99)%nat ->
          nth (S i) x_vals 0 - nth i x_vals 0 = (1 - 0) / 99).
Proof.
  apply (plot_samples (fun x => x ^ 2) square 0 1).
  intros l. reflexivity.
Defined.

(** C9, as stated, fails: it speaks of every callable.  The function
    generated for the constant expression [5] returns the bare number [5]
    for the whole array of abscissas, so the ordinates are one number and
    not 100. *)
Lemma constant_samples_are_one_number :
  ~ (forall (func : callable) a b,
       exists x_vals y_vals x_surface Y Z,
         get_plot_data func a b = ret (x_vals, Vec y_vals, x_surface, Y, Z)
         /\ List.length x_vals = 100%nat
         /\ List.length y_vals = 100%nat).
Proof.
  intros H.
  destruct (H five 0 1) as (x_vals & y_vals & x_surface & Y & Z & Hret & _).
  destruct (get_plot_data_constant five 5 0 1) as (xs & Y' & Z' & Hfive);
    [reflexivity |].
  rewrite Hfive in Hret. discriminate.
Qed.

(** * Further properties of the script *)

(** ** The surface of revolution built by [get_plot_data] *)

(** X1: the three coordinate grids of the surface are 100 by 100, and row
    [i] of the abscissa grid repeats the sample [x_vals[i]]. *)
Theorem surface_grid (f : R -> R) (func : callable) a b :
  (forall l, func (Vec l) = ret (Vec (map f l))) ->
  exists x_vals y_vals x_surface Y Z,
    get_plot_data func a b = ret (x_vals, y_vals, x_surface, Y, Z)
    /\ List.length x_surface = 100%nat
    /\ List.length Y = 100%nat
    /\ List.length Z = 100%nat
    /\ Forall (fun row => List.length row = 100%nat) x_surface
    /\ Forall (fun row => List.length row = 100%nat) Y
    /\ Forall (fun row => List.length row = 100%nat) Z
    /\ (forall i j, (i < 100)%nat -> (j < 100)%nat ->
          entry x_surface i j = nth i x_vals 0).
Proof.
  intros Hfunc. eexists _, _, _, _, _.
  split; [now apply get_plot_data_vectorized |].
  pose proof (repeat_newaxis_shape (np.linspace a b 100) 100) as [Hx Hxr].
  pose proof (outer_shape (map f (np.linspace a b 100))
                (map cos (np.linspace 0 (2 * np.pi) 100))) as [HY HYr].
  pose proof (outer_shape (map f (np.linspace a b 100))
                (map sin (np.linspace 0 (2 * np.pi) 100))) as [HZ HZr].
  rewrite !length_map, !linspace_100_length in *.
  repeat split; try assumption.
  intros i j Hi Hj.
  now apply entry_repeat_newaxis; rewrite ?linspace_100_length.
Qed.

Lemma surface_grid_witness :
  exists x_vals y_vals x_surface Y Z,
    get_plot_data square 0 1 = ret (x_vals, y_vals, x_surface, Y, Z)
    /\ List.length x_surface = 100%nat
    /\ List.length Y = 100%nat
    /\ List.length Z = 100%nat
    /\ Forall (fun row => List.length row = 100%nat) x_surface
    /\ Forall (fun row => List.length row = 100%nat) Y
    /\ Forall (fun row => List.length row = 100%nat) Z
    /\ (forall i j, (i < 100)%nat -> (j < 100)%nat ->
          entry x_surface i j = nth i x_vals 0).
Proof.
  apply (surface_grid (fun x => x ^ 2) square 0 1).
  intros l. reflexivity.
Defined.

(** ** The frames of the rotating surface *)








(** ** The frames of the two-dimensional animation *)




(** ** The function [lambdify] generates, as a real function *)

Lemma denote_constant arg (e : sp.expr) x y :
  first_unbound arg e = None -> mentions arg e = false ->
  denote e x = denote e y.
Proof.
  induction e as [name | n | e1 IH1 e2 IH2 | e1 IH1 e2 IH2 | e1 IH1 n];
    simpl; intros Hb Hm.
  - destruct (String.eqb name arg); discriminate.
  - reflexivity.
  - destruct (first_unbound arg e1); [discriminate |].
    apply orb_false_elim in Hm as [H1 H2]. now rewrite IH1, IH2.
  - destruct (first_unbound arg e1); [discriminate |].
    apply orb_false_elim in Hm as [H1 H2]. now rewrite IH1, IH2.
  - now rewrite IH1.
Qed.

Lemma in_range_value (e : sp.expr) x :
  in_range e x -> Rabs (denote e x) < operator.overflow_threshold.
Proof. destruct e; simpl; tauto. Qed.

Lemma zip_with_map op (d1 d2 : R -> R) (l : list R) :
  np.zip_with op (map d1 l) (map d2 l) = map (fun x => op (d1 x) (d2 x)) l.
Proof. induction l as [| x l IH]; simpl; [reflexivity | now rewrite IH]. Qed.

(** Broadcasting two values computed from the same array: each is the
    array of its values, or a number when the argument does not occur. *)
Lemma broadcast_denote op (d1 d2 : R -> R) (l : list R) (m1 m2 : bool) x0 :
  (m1 = false -> forall x, d1 x = d1 x0) ->
  (m2 = false -> forall x, d2 x = d2 x0) ->
  np.broadcast op
    (if m1 then Vec (map d1 l) else Scalar (d1 x0))
    (if m2 then Vec (map d2 l) else Scalar (d2 x0))
  = ret (if m1 || m2 then Vec (map (fun x => op (d1 x) (d2 x)) l)
         else Scalar (op (d1 x0) (d2 x0))).
Proof.
  intros H1 H2. destruct m1, m2; simpl.
  - rewrite !length_map, Nat.eqb_refl. now rewrite zip_with_map.
  - rewrite map_map. do 2 f_equal. apply map_ext.
    intros x. now rewrite (H2 eq_refl x).
  - rewrite map_map. do 2 f_equal. apply map_ext.
    intros x. now rewrite (H1 eq_refl x).
  - reflexivity.
Qed.

Lemma add_numeric (m1 m2 : bool) (l1 l2 : list R) (c1 c2 : R) :
  operator.add (if m1 then Vec l1 else Scalar c1)
    (if m2 then Vec l2 else Scalar c2)
  = np.broadcast Rplus (if m1 then Vec l1 else Scalar c1)
      (if m2 then Vec l2 else Scalar c2).
Proof. now destruct m1, m2. Qed.

Lemma mul_numeric (m1 m2 : bool) (l1 l2 : list R) (c1 c2 : R) :
  operator.mul (if m1 then Vec l1 else Scalar c1)
    (if m2 then Vec l2 else Scalar c2)
  = np.broadcast Rmult (if m1 then Vec l1 else Scalar c1)
      (if m2 then Vec l2 else Scalar c2).
Proof. now destruct m1, m2. Qed.

(** On a float at which the expression meets no overflow, the generated
    function returns the value of the expression. *)
Lemma run_scalar arg (e : sp.expr) r :
  first_unbound arg e = None ->
  in_range e r ->
  sp.run arg e (Scalar r) = ret (Scalar (denote e r)).
Proof.
  induction e as [name | n | e1 IH1 e2 IH2 | e1 IH1 e2 IH2 | e1 IH1 n];
    simpl; intros Hb Hr.
  - destruct (String.eqb name arg); [reflexivity | discriminate].
  - reflexivity.
  - destruct (first_unbound arg e1); [discriminate |].
    destruct Hr as (_ & Hr1 & Hr2).
    now rewrite IH1, IH2, !bind_ret_l.
  - destruct (first_unbound arg e1); [discriminate |].
    destruct Hr as (_ & Hr1 & Hr2).
    now rewrite IH1, IH2, !bind_ret_l.
  - destruct Hr as (Hv & Hr1).
    rewrite IH1, bind_ret_l by assumption. now apply pow_scalar.
Qed.

(** On an array it returns the values element by element when the argument
    occurs in the expression, and the bare constant when it does not. *)
Lemma run_vec arg (e : sp.expr) (l : list R) x0 :
  first_unbound arg e = None ->
  in_range e x0 ->
  sp.run arg e (Vec l) =
    ret (if mentions arg e then Vec (map (denote e) l)
         else Scalar (denote e x0)).
Proof.
  induction e as [name | n | e1 IH1 e2 IH2 | e1 IH1 e2 IH2 | e1 IH1 n];
    simpl; intros Hb Hr.
  - destruct (String.eqb name arg); [| discriminate].
    now rewrite map_id.
  - reflexivity.
  - destruct (first_unbound arg e1) eqn:Hb1; [discriminate |].
    destruct Hr as (_ & Hr1 & Hr2).
    rewrite IH1, IH2, !bind_ret_l, add_numeric by auto.
    apply (broadcast_denote Rplus (denote e1) (denote e2));
      intros Hm x; now apply denote_constant with arg.
  - destruct (first_unbound arg e1) eqn:Hb1; [discriminate |].
    destruct Hr as (_ & Hr1 & Hr2).
    rewrite IH1, IH2, !bind_ret_l, mul_numeric by auto.
    apply (broadcast_denote Rmult (denote e1) (denote e2));
      intros Hm x; now apply denote_constant with arg.
  - destruct Hr as (Hv & Hr1).
    rewrite IH1, bind_ret_l by assumption.
    destruct (mentions arg e1); simpl; [now rewrite map_map |].
    destruct (Rlt_dec _ _); [reflexivity | contradiction].
Qed.


(** Where the expression and [pi * e(x)^2] meet no overflow, the integrand
    is [pi * e(x)^2]. *)
Lemma lambdify_integrand (e : sp.expr) x :
  first_unbound "x" e = None ->
  in_range e x ->
  PI * denote e x ^ 2 < operator.overflow_threshold ->
  disk_integrand (sp.lambdify (sp.symbols "x") e) x
    = ret (Scalar (PI * denote e x ^ 2)).
Proof.
  intros Hb Hr Hv.
  apply disk_integrand_scalar; [| now apply square_in_range].
  simpl. now apply run_scalar.
Qed.




(** ** The callback after a click *)






Lemma Scatter_scalar (x : ndarray) c mode name line_color fill fillcolor :
  go.Scatter x (Scalar c) mode name line_color fill fillcolor
    = raise ValueError.
Proof. now destruct x. Qed.

Lemma constant_expression (arg : string) (e : sp.expr) :
  sp.free_symbols e = [] ->
  first_unbound arg e = None /\ mentions arg e = false.
Proof.
  induction e as [name | n | e1 IH1 e2 IH2 | e1 IH1 e2 IH2 | e1 IH1 n];
    simpl; intros Hfree.
  - discriminate.
  - auto.
  - apply app_eq_nil in Hfree as [H1 H2].
    destruct (IH1 H1) as [-> ->], (IH2 H2) as [-> ->]. auto.
  - apply app_eq_nil in Hfree as [H1 H2].
    destruct (IH1 H1) as [-> ->], (IH2 H2) as [-> ->]. auto.
  - auto.
Qed.

Lemma in_range_constant arg (e : sp.expr) x y :
  first_unbound arg e = None -> mentions arg e = false ->
  in_range e x -> in_range e y.
Proof.
  induction e as [name | n | e1 IH1 e2 IH2 | e1 IH1 e2 IH2 | e1 IH1 n];
    intros Hb Hm Hr.
  - simpl in Hb, Hm. destruct (String.eqb name arg); discriminate.
  - exact Hr.
  - destruct Hr as (Hv & Hr1 & Hr2).
    rewrite (denote_constant arg _ x y Hb Hm) in Hv.
    simpl in Hb, Hm. destruct (first_unbound arg e1); [discriminate |].
    apply orb_false_elim in Hm as [H1 H2].
    split; [assumption |]. split; auto.
  - destruct Hr as (Hv & Hr1 & Hr2).
    rewrite (denote_constant arg _ x y Hb Hm) in Hv.
    simpl in Hb, Hm. destruct (first_unbound arg e1); [discriminate |].
    apply orb_false_elim in Hm as [H1 H2].
    split; [assumption |]. split; auto.
  - destruct Hr as (Hv & Hr1).
    rewrite (denote_constant arg _ x y Hb Hm) in Hv.
    split; [assumption |]. now apply IH1.
Qed.

(** X9: a constant expression cannot be plotted.  Where its evaluation
    meets no overflow, the generated function returns a bare number for the
    whole array of abscissas, the integration goes through, and the first
    [go.Scatter] refuses the number as its [y]: after a click the callback
    raises [ValueError]. *)
Theorem constant_expression_raises
    quad sympify format_4f (n_clicks : Z) (func_str : string) (a b : R)
    ws (func : sp.expr) :
  quad_total quad ->
  (n_clicks > 0)%Z ->
  sympify func_str = (ws, inr func) ->
  sp.free_symbols func = [] ->
  in_range func 0 ->
  PI * denote func 0 ^ 2 < operator.overflow_threshold ->
  exists wsv volume,
    volume_disk_method quad (sp.lambdify (sp.symbols "x") func) a b
      = (wsv, inr volume)
    /\ update_output quad sympify format_4f n_clicks func_str a b
       = (ws ++ wsv, inl ValueError).
Proof.
  intros Htot Hn Hs Hfree Hr Hv0.
  destruct (constant_expression "x" func Hfree) as [Hb Hm].
  destruct (Htot (disk_integrand (sp.lambdify (sp.symbols "x") func)) a b)
    as (wsv & volume & err & Hq).
  { intros x _. eexists. apply lambdify_integrand; [assumption | |].
    - now apply (in_range_constant "x" func 0 x).
    - now rewrite (denote_constant "x" func x 0). }
  pose proof (volume_of_quad_value _ _ _ _ _ _ _ Hq) as Hv.
  exists wsv, volume. split; [assumption |].
  destruct (get_plot_data_constant
              (sp.lambdify (sp.symbols "x") func) (denote func 0) a b)
    as (x_surface & Y & Z & Hplot).
  { intros l. simpl. now rewrite (run_vec _ _ _ 0), Hm. }
  unfold update_output. rewrite (clicked _ Hn), Hs. cbn [bind].
  rewrite Hv. cbn [bind]. rewrite Hplot, bind_ret_l.
  cbv beta iota zeta. rewrite Scatter_scalar.
  cbn [bind raise]. now rewrite app_nil_r.
Qed.

Lemma constant_expression_raises_witness :
  exists wsv volume,
    volume_disk_method midpoint_quad
        (sp.lambdify (sp.symbols "x") (sp.Integer 5)) 0 1
      = (wsv, inr volume)
    /\ update_output midpoint_quad sum_sympify (fun _ => "0.0000") 1 "5" 0 1
       = ([] ++ wsv, inl ValueError).
Proof.
  pose proof PI_4. pose proof PI_RGT_0. pose proof overflow_threshold_large.
  apply (constant_expression_raises midpoint_quad sum_sympify
           (fun _ => "0.0000") 1 "5" 0 1 [] (sp.Integer 5)).
  - exact midpoint_quad_total.
  - lia.
  - reflexivity.
  - reflexivity.
  - simpl. rewrite Rabs_pos_eq by lra. split; [lra | exact I].
  - simpl. lra.
Defined.

(** X10: an exception that comes out of the integration (a
    [ZeroDivisionError] of the expression, say) is not handled either: after
    a click it is the outcome of the callback, and no figure is built. *)
Theorem integration_error_escapes
    quad sympify format_4f (n_clicks : Z) (func_str : string) (a b : R)
    ws wsq (func : sp.expr) e :
  (n_clicks > 0)%Z ->
  sympify func_str = (ws, inr func) ->
  quad (disk_integrand (sp.lambdify (sp.symbols "x") func)) a b
    = (wsq, inl e) ->
  update_output quad sympify format_4f n_clicks func_str a b
    = (ws ++ wsq, inl e).
Proof.
  intros Hn Hs Hq. unfold update_output.
  rewrite (clicked _ Hn), Hs. cbn [bind].
  now rewrite (volume_of_quad_exception _ _ _ _ _ _ Hq).
Qed.

Lemma integration_error_escapes_witness :
  update_output midpoint_quad sum_sympify (fun _ => "0.0000") 1 "x + y" 0 1
    = ([] ++ [], inl TypeError).
Proof.
  apply (integration_error_escapes midpoint_quad sum_sympify _ 1 "x + y" 0 1
           [] [] (sp.Add (sp.Symbol "x") (sp.Symbol "y"))).
  - lia.
  - reflexivity.
  - apply scipy_quad_needs_floats.
    + exact midpoint_rule_needs_floats.
    + lra.
    + intros x _. apply disk_integrand_symbolic.
      apply second_symbol_stays. discriminate.
Defined.

(** ** The fill colour of the frames *)


